(** * quota/enforcer.go: the static quota enforcer

    A shallow embedding of [StaticQuotaEnforcer] (a counting semaphore
    made of an [atomic.Int64] and a channel of capacity one), of its
    two methods and of its constructor, together with a small-step
    model of goroutines calling them, and the properties of the
    enforcer that follow from the code. *)

From Stdlib Require Import ZArith Lia Bool.
From stdpp Require Import base option numbers list gmap.

Local Open Scope Z_scope.

(** * Part I: the embedding *)

(** ** Machine integers *)

Module Int64.

Definition modulus : Z := 2 ^ 64.
Definition min_int64 : Z := - 2 ^ 63.
Definition max_int64 : Z := 2 ^ 63 - 1.

Definition in_range (x : Z) : Prop := min_int64 <= x <= max_int64.

(** Two's complement reduction of an integer to 64 bits. *)
Definition wrap (x : Z) : Z := (x - min_int64) mod modulus + min_int64.

(** [atomic.Int64.Add]: the sum, wrapped; the new value is returned. *)
Definition add (x delta : Z) : Z := wrap (x + delta).

End Int64.

Module Uint32.

Definition in_range (x : Z) : Prop := 0 <= x < 2 ^ 32.

(** The conversion [int64(n)] of an [n uint32]. *)
Definition to_int64 (x : Z) : Z := Int64.wrap (x mod 2 ^ 32).

End Uint32.

(** ** Tickets and contexts *)

(** [type Ticket interface{}]: any Go value.  [Acquire] only ever
    returns [emptyTicket{}] or the boolean [false]. *)
Inductive Ticket : Type :=
| emptyTicket                (* emptyTicket{} *)
| boolTicket (b : bool)      (* a bool boxed in the interface *)
| nilTicket                  (* the nil interface *)
| otherTicket (tag : Z).     (* any other dynamic value *)

Definition Granted : Ticket := emptyTicket.
Definition Denied : Ticket := boolTicket false.

(** A [context.Context] is identified by a number; whether its [Done]
    channel is closed is part of the state of the system. *)
Definition Context : Type := nat.

(** ** The enforcer and the operations its methods perform on it *)

Record StaticQuotaEnforcer : Type := mkEnforcer {
  n : Z;           (* atomic.Int64 *)
  wait : nat       (* chan struct{}: the number of buffered elements *)
}.

(** [make(chan struct{}, 1)] *)
Definition wait_cap : nat := 1%nat.

(** The case a [select] statement of [Acquire] leaves by. *)
Inductive select_case : Type :=
| CaseCtxDone      (* case <-ctx.Done() *)
| CaseWait.        (* case <-q.wait *)

(** Method bodies: a tree of the operations on the shared enforcer, each
    with the rest of the body as its continuation. *)
Inductive prog (A : Type) : Type :=
| Ret (a : A)
| AtomicAdd (delta : Z) (k : Z -> prog A)                (* q.n.Add(delta) *)
| Select (ctx : Context) (k : select_case -> prog A)     (* select { ... } *)
| ChanSend (k : unit -> prog A).                         (* q.wait <- struct{}{} *)

Arguments Ret {A} a.
Arguments AtomicAdd {A} delta k.
Arguments Select {A} ctx k.
Arguments ChanSend {A} k.

Fixpoint bind {A B : Type} (m : prog A) (f : A -> prog B) : prog B :=
  match m with
  | Ret a => f a
  | AtomicAdd d k => AtomicAdd d (fun v => bind (k v) f)
  | Select c k => Select c (fun b => bind (k b) f)
  | ChanSend k => ChanSend (fun u => bind (k u) f)
  end.

Notation "x <- m ;; k" := (bind m (fun x => k))
  (at level 100, m at next level, right associativity).

Definition n_Add (delta : Z) : prog Z := AtomicAdd delta Ret.
Definition select_done_or_wait (ctx : Context) : prog select_case := Select ctx Ret.
Definition wait_send : prog unit := ChanSend Ret.

(** [func (q *StaticQuotaEnforcer) Acquire(ctx context.Context) Ticket] *)
Definition Acquire (ctx : Context) : prog Ticket :=
  v <- n_Add (-1) ;;
  if v <? 0 then
    c <- select_done_or_wait ctx ;;
    match c with
    | CaseCtxDone => Ret (boolTicket false)
    | CaseWait => Ret emptyTicket
    end
  else Ret emptyTicket.

(** [func (q *StaticQuotaEnforcer) Release(_ Ticket)] *)
Definition Release (_ : Ticket) : prog unit :=
  v <- n_Add 1 ;;
  if v <=? 0 then wait_send else Ret tt.

(** [func NewStaticQuotaEnforcer(n uint32) *StaticQuotaEnforcer] *)
Definition NewStaticQuotaEnforcer (capacity : Z) : StaticQuotaEnforcer :=
  let a := {| n := 0; wait := 0 |} in
  {| n := Uint32.to_int64 capacity; wait := wait a |}.

(** One operation of a method body on the enforcer.  [fired] is the set
    of contexts that are done and [pick] the case a [select] is to leave
    by; the step is refused ([None]) where the goroutine cannot move:
    the body has returned, the picked case is not ready, or the channel
    is full. *)
Definition step_prog {A : Type} (fired : gset Context) (pick : select_case)
    (q : StaticQuotaEnforcer) (p : prog A) : option (StaticQuotaEnforcer * prog A) :=
  match p with
  | Ret _ => None
  | AtomicAdd d k =>
      let v := Int64.add (n q) d in
      Some ({| n := v; wait := wait q |}, k v)
  | Select ctx k =>
      match pick with
      | CaseCtxDone =>
          if bool_decide (ctx ∈ fired) then Some (q, k CaseCtxDone) else None
      | CaseWait =>
          match wait q with
          | O => None
          | S w => Some ({| n := n q; wait := w |}, k CaseWait)
          end
      end
  | ChanSend k =>
      if (wait q <? wait_cap)%nat
      then Some ({| n := n q; wait := S (wait q) |}, k tt)
      else None
  end.

(** [Acquire] suspended in its [select]. *)
Definition parked_acquire (ctx : Context) : prog Ticket :=
  Select ctx (fun c =>
    match c with
    | CaseCtxDone => Ret (boolTicket false)
    | CaseWait => Ret emptyTicket
    end).

(** The channel sends a body performs before it returns, for a body
    that is past its atomic add (it has no add and no select left). *)
Fixpoint sends {A : Type} (p : prog A) : nat :=
  match p with
  | ChanSend k => S (sends (k tt))
  | Ret _ => O
  | AtomicAdd _ _ => O
  | Select _ _ => O
  end.

(** ** Goroutines calling the enforcer *)

(** A call of [Acquire]: what is left of its body ([Ret t] once it has
    returned [t]) and whether the ticket it returned has been handed to
    [Release] since. *)
Record acquire_call : Type := mkCall {
  a_code : prog Ticket;
  a_released : bool
}.

Record system : Type := mkSystem {
  enf : StaticQuotaEnforcer;
  fired : gset Context;               (* the contexts that are done *)
  acquires : list acquire_call;       (* the calls of Acquire, oldest first *)
  releases : list (prog unit)         (* the calls of Release, oldest first *)
}.

(** What the scheduler and the callers can do.  A call and the atomic
    [Add] its body starts with are one step: nothing another goroutine
    can observe lies between them.  A send goes through when the buffer
    of the channel has room, and the element stays there until a
    suspended call is resumed by it. *)
Inductive event : Type :=
| EvAcquire (ctx : Context)               (* a goroutine calls q.Acquire(ctx) *)
| EvCancel (ctx : Context)                (* ctx is cancelled or its deadline passes *)
| EvResume (i : nat) (pick : select_case) (* the select of Acquire call i leaves by pick *)
| EvRelease (i : nat)                     (* a goroutine calls q.Release(t), t returned by call i *)
| EvSend (j : nat).                       (* the channel send of Release call j goes through *)

Definition returned {A : Type} (p : prog A) : option A :=
  match p with
  | Ret a => Some a
  | _ => None
  end.

Definition step (e : event) (s : system) : option system :=
  match e with
  | EvAcquire ctx =>
      '(q, p) ← step_prog (fired s) CaseWait (enf s) (Acquire ctx);
      Some {| enf := q; fired := fired s;
              acquires := acquires s ++ [ {| a_code := p; a_released := false |} ];
              releases := releases s |}
  | EvCancel ctx =>
      Some {| enf := enf s; fired := {[ ctx ]} ∪ fired s;
              acquires := acquires s; releases := releases s |}
  | EvResume i pick =>
      a ← acquires s !! i;
      '(q, p) ← step_prog (fired s) pick (enf s) (a_code a);
      Some {| enf := q; fired := fired s;
              acquires := <[ i := {| a_code := p; a_released := a_released a |} ]> (acquires s);
              releases := releases s |}
  | EvRelease i =>
      a ← acquires s !! i;
      t ← returned (a_code a);
      '(q, p) ← step_prog (fired s) CaseWait (enf s) (Release t);
      Some {| enf := q; fired := fired s;
              acquires := <[ i := {| a_code := a_code a; a_released := true |} ]> (acquires s);
              releases := releases s ++ [ p ] |}
  | EvSend j =>
      p ← releases s !! j;
      '(q, p') ← step_prog (fired s) CaseWait (enf s) p;
      Some {| enf := q; fired := fired s;
              acquires := acquires s;
              releases := <[ j := p' ]> (releases s) |}
  end.

Fixpoint run (tr : list event) (s : system) : option system :=
  match tr with
  | [] => Some s
  | e :: tr' => s' ← step e s; run tr' s'
  end.

Definition init (capacity : Z) : system :=
  {| enf := NewStaticQuotaEnforcer capacity; fired := ∅; acquires := []; releases := [] |}.

(** The state a run ends in ([init] when a step of it is refused). *)
Definition final (capacity : Z) (tr : list event) : system :=
  default (init capacity) (run tr (init capacity)).

(** *** The state of a ticket *)

Definition is_parked (a : acquire_call) : bool :=
  match a_code a with
  | Select _ _ => true
  | _ => false
  end.

(** Granted: the call returned [emptyTicket{}], not released yet. *)
Definition is_granted (a : acquire_call) : bool :=
  match a_code a with
  | Ret emptyTicket => negb (a_released a)
  | _ => false
  end.

(** Denied: the call returned [false]. *)
Definition is_denied (a : acquire_call) : bool :=
  match a_code a with
  | Ret (boolTicket false) => true
  | _ => false
  end.

Definition is_sending (p : prog unit) : bool :=
  match p with
  | ChanSend _ => true
  | _ => false
  end.

Fixpoint count {A : Type} (f : A -> bool) (l : list A) : nat :=
  match l with
  | [] => O
  | x :: l' => ((if f x then 1 else 0) + count f l')%nat
  end.

Definition counter (s : system) : Z := n (enf s).
Definition granted (s : system) : nat := count is_granted (acquires s).
Definition parked (s : system) : nat := count is_parked (acquires s).
Definition denied (s : system) : nat := count is_denied (acquires s).
Definition sending (s : system) : nat := count is_sending (releases s).

(** The wake signals that have been sent or are being sent, and have not
    been received. *)
Definition pending_signals (s : system) : nat := (wait (enf s) + sending s)%nat.

(** *** The rules callers are to follow *)

(** Ticket discipline: [Release] is called with a granted ticket that has
    not been released before. *)
Definition disciplined (e : event) (s : system) : bool :=
  match e with
  | EvRelease i =>
      match acquires s !! i with
      | Some a => is_granted a
      | None => false
      end
  | _ => true
  end.

(** Single outstanding waiter: [Acquire] is not called while another
    call of it is suspended. *)
Definition single_waiter (e : event) (s : system) : bool :=
  match e with
  | EvAcquire _ => (parked s =? 0)%nat
  | _ => true
  end.

Fixpoint obeys (rule : event -> system -> bool) (tr : list event) (s : system) : bool :=
  match tr with
  | [] => true
  | e :: tr' =>
      rule e s &&
      match step e s with
      | Some s' => obeys rule tr' s'
      | None => false
      end
  end.

(** *** Fast-path calls in a row *)

(** The enforcer a call of [Acquire] leaves when it returns at once,
    [None] when the call is suspended. *)
Definition acquire_now (q : StaticQuotaEnforcer) : option StaticQuotaEnforcer :=
  match step_prog ∅ CaseWait q (Acquire 0%nat) with
  | Some (q', Ret _) => Some q'
  | _ => None
  end.

(** How many of [k] calls of [Acquire] in a row return without being
    suspended, with no release in between. *)
Fixpoint nonblocking_acquires (k : nat) (q : StaticQuotaEnforcer) : nat :=
  match k with
  | O => O
  | S k' =>
      match acquire_now q with
      | Some q' => S (nonblocking_acquires k' q')
      | None => O
      end
  end.

(** *** Scenarios *)

(** The scenario of capacity one: a call is granted, the next one
    waits, the release of the first wakes it, and it is released too. *)
Definition scenario_handoff : list event :=
  [EvAcquire 0%nat; EvAcquire 1%nat; EvRelease 0; EvSend 0; EvResume 1 CaseWait;
   EvRelease 1].

(** A cancelled wait followed by the release of the one granted ticket:
    every call has returned, no ticket is granted, and the counter is
    zero where the capacity is one. *)
Definition scenario_cancel : list event :=
  [EvAcquire 0%nat; EvAcquire 1%nat; EvCancel 1%nat; EvResume 1 CaseCtxDone;
   EvRelease 0; EvSend 0].

(** ** Counting and the shape of calls *)

Definition b2z (b : bool) : Z := if b then 1 else 0.

Inductive acquire_shape : acquire_call -> Prop :=
| shape_parked ctx : acquire_shape {| a_code := parked_acquire ctx; a_released := false |}
| shape_granted r : acquire_shape {| a_code := Ret emptyTicket; a_released := r |}
| shape_denied r : acquire_shape {| a_code := Ret (boolTicket false); a_released := r |}.

Inductive release_shape : prog unit -> Prop :=
| shape_sending : release_shape wait_send
| shape_done : release_shape (Ret tt).

(** ** The invariant of the enforcer under ticket discipline *)

Record inv (capacity : Z) (s : system) : Prop := mkInv {
  inv_cap : Uint32.in_range capacity;
  inv_acq : Forall acquire_shape (acquires s);
  inv_rel : Forall release_shape (releases s);
  (* every decrement is a granted, a suspended or a denied call *)
  inv_counter :
    counter s =
    capacity - Z.of_nat (granted s) - Z.of_nat (parked s) - Z.of_nat (denied s);
  (* below zero, the counter is the number of slow-path calls a release
     has not signalled yet *)
  inv_signal :
    Z.of_nat (parked s) + Z.of_nat (denied s) =
    Z.max 0 (- counter s) + Z.of_nat (pending_signals s);
  inv_wait : (wait (enf s) <= wait_cap)%nat
}.

(** * Part II: properties *)

(** ** Arithmetic in 64 bits *)

Lemma int64_wrap_in_range x : Int64.in_range (Int64.wrap x).
Proof.
  unfold Int64.in_range, Int64.wrap, Int64.min_int64, Int64.max_int64, Int64.modulus.
  pose proof (Z.mod_pos_bound (x - - 2 ^ 63) (2 ^ 64)). lia.
Qed.

Lemma int64_wrap_small x : Int64.in_range x -> Int64.wrap x = x.
Proof.
  unfold Int64.in_range, Int64.wrap, Int64.min_int64, Int64.max_int64, Int64.modulus.
  intros Hx. rewrite Z.mod_small; lia.
Qed.

Lemma int64_add_in_range x d : Int64.in_range (Int64.add x d).
Proof. apply int64_wrap_in_range. Qed.

Lemma int64_add_exact x d : Int64.in_range (x + d) -> Int64.add x d = x + d.
Proof. apply int64_wrap_small. Qed.

(** The two places where [Add] wraps around. *)
Lemma int64_add_max_1 : Int64.add Int64.max_int64 1 = Int64.min_int64.
Proof. reflexivity. Qed.

Lemma int64_add_min_m1 : Int64.add Int64.min_int64 (-1) = Int64.max_int64.
Proof. reflexivity. Qed.

(** Adding one after subtracting one is the identity, also across the
    wrap at [min_int64]. *)
Lemma int64_add_m1_1 x : Int64.in_range x -> Int64.add (Int64.add x (-1)) 1 = x.
Proof.
  intros Hx. destruct (Z.eq_dec x Int64.min_int64) as [-> | Hne].
  - reflexivity.
  - rewrite (int64_add_exact x (-1)).
    + rewrite int64_add_exact; unfold Int64.in_range in *; lia.
    + unfold Int64.in_range, Int64.min_int64, Int64.max_int64 in *. lia.
Qed.

Lemma int64_add_m1_negative x :
  Int64.in_range x -> Int64.add x (-1) < 0 -> Int64.add x (-1) = x - 1.
Proof.
  intros Hx Hneg. destruct (Z.eq_dec x Int64.min_int64) as [-> | Hne].
  - rewrite int64_add_min_m1 in Hneg. unfold Int64.max_int64 in Hneg. lia.
  - apply int64_add_exact.
    unfold Int64.in_range, Int64.min_int64, Int64.max_int64 in *. lia.
Qed.

Lemma uint32_to_int64_exact x : Uint32.in_range x -> Uint32.to_int64 x = x.
Proof.
  unfold Uint32.in_range, Uint32.to_int64. intros Hx. rewrite Z.mod_small by lia.
  apply int64_wrap_small. unfold Int64.in_range, Int64.min_int64, Int64.max_int64.
  lia.
Qed.

(** ** The first step of each method *)

Lemma step_Acquire fired pick q ctx :
  step_prog fired pick q (Acquire ctx) =
  let v := Int64.add (n q) (-1) in
  Some ({| n := v; wait := wait q |},
        if v <? 0 then parked_acquire ctx else Ret emptyTicket).
Proof. reflexivity. Qed.

Lemma step_Release fired pick q t :
  step_prog fired pick q (Release t) =
  let v := Int64.add (n q) 1 in
  Some ({| n := v; wait := wait q |},
        if v <=? 0 then wait_send else Ret tt).
Proof. reflexivity. Qed.

Lemma step_parked_done fired q ctx :
  ctx ∈ fired ->
  step_prog fired CaseCtxDone q (parked_acquire ctx) = Some (q, Ret (boolTicket false)).
Proof. intros Hin. simpl. rewrite bool_decide_eq_true_2; done. Qed.

Lemma step_parked_wait fired q ctx w :
  wait q = S w ->
  step_prog fired CaseWait q (parked_acquire ctx) =
  Some ({| n := n q; wait := w |}, Ret emptyTicket).
Proof. intros Hw. simpl. rewrite Hw. reflexivity. Qed.

Lemma step_wait_send fired pick q :
  wait q = O ->
  step_prog fired pick q wait_send = Some ({| n := n q; wait := 1 |}, Ret tt).
Proof. intros Hw. simpl. rewrite Hw. reflexivity. Qed.

(** ** Counting *)

Lemma count_app {A} (f : A -> bool) (l1 l2 : list A) :
  count f (l1 ++ l2) = (count f l1 + count f l2)%nat.
Proof. induction l1 as [| x l1 IH]; simpl; [reflexivity | rewrite IH; lia]. Qed.

Lemma count_snoc {A} (f : A -> bool) (l : list A) (x : A) :
  Z.of_nat (count f (l ++ [x])) = Z.of_nat (count f l) + b2z (f x).
Proof. rewrite count_app. simpl. unfold b2z. destruct (f x); lia. Qed.

Lemma count_insert {A} (f : A -> bool) (l : list A) (i : nat) (x y : A) :
  l !! i = Some x ->
  Z.of_nat (count f (<[ i := y ]> l)) = Z.of_nat (count f l) - b2z (f x) + b2z (f y).
Proof.
  revert i. induction l as [| z l IH]; intros [| i] Hi; simpl in *; try discriminate.
  - injection Hi as ->. unfold b2z. destruct (f x), (f y); lia.
  - specialize (IH i Hi). lia.
Qed.

Lemma count_disjoint {A} (f g : A -> bool) (l : list A) :
  (forall x, f x = true -> g x = false) ->
  (count f l + count g l <= length l)%nat.
Proof.
  intros Hfg. induction l as [| x l IH]; simpl; [lia |].
  specialize (Hfg x). destruct (f x), (g x); try lia.
  all: try (specialize (Hfg eq_refl); discriminate).
Qed.

Lemma count_lookup_pos {A} (f : A -> bool) (l : list A) (i : nat) (x : A) :
  l !! i = Some x -> f x = true -> (1 <= count f l)%nat.
Proof.
  revert i. induction l as [| z l IH]; intros [| i] Hi Hx; simpl in *; try discriminate.
  - injection Hi as ->. rewrite Hx. lia.
  - specialize (IH i Hi Hx). lia.
Qed.

Lemma parked_denied_disjoint (l : list acquire_call) :
  (count is_parked l + count is_denied l <= length l)%nat.
Proof.
  apply count_disjoint. intros [p r]. unfold is_parked, is_denied. simpl.
  destruct p; congruence.
Qed.

(** ** The invariant is kept by every disciplined step *)

Lemma inv_init capacity : Uint32.in_range capacity -> inv capacity (init capacity).
Proof.
  intros Hc. constructor; simpl; try done.
  - unfold counter, granted, parked, denied. simpl.
    rewrite uint32_to_int64_exact by done. lia.
  - unfold counter, parked, denied, pending_signals, sending. simpl.
    rewrite uint32_to_int64_exact by done. unfold Uint32.in_range in Hc. lia.
  - unfold wait_cap. lia.
Qed.

Lemma inv_counter_bounds capacity s :
  inv capacity s ->
  - Z.of_nat (length (acquires s)) <= counter s <= capacity.
Proof.
  intros [Hc _ _ Hn Hs _].
  pose proof (parked_denied_disjoint (acquires s)) as Hpd.
  unfold parked, denied in *. lia.
Qed.

Lemma inv_granted_le capacity s :
  inv capacity s ->
  Z.of_nat (granted s) = capacity - Z.max 0 (counter s) - Z.of_nat (pending_signals s).
Proof. intros [Hc _ _ Hn Hs _]. lia. Qed.

Ltac counts :=
  unfold pending_signals in *;
  unfold counter, granted, parked, denied, sending in *;
  simpl in *;
  rewrite ?Nat2Z.inj_succ, ?Nat2Z.inj_add;
  repeat rewrite count_snoc;
  repeat (erewrite count_insert by eassumption);
  simpl; unfold b2z; simpl; try lia.

Ltac int64_exact :=
  rewrite int64_add_exact
    by (unfold Int64.in_range, Int64.min_int64, Int64.max_int64, counter in *; lia).

Lemma step_inv capacity e s s' :
  inv capacity s ->
  Z.of_nat (length (acquires s)) < Int64.max_int64 ->
  disciplined e s = true ->
  step e s = Some s' ->
  inv capacity s'.
Proof.
  intros Hinv Hlen Hdisc Hstep.
  pose proof (inv_counter_bounds _ _ Hinv) as Hb.
  destruct Hinv as [Hc Hacq Hrel Hn Hs Hw].
  assert (Hcap : 0 <= capacity < 2 ^ 32) by exact Hc.
  unfold Int64.max_int64 in Hlen.
  destruct e as [ctx | ctx | i pick | i | j]; simpl in Hstep.
  - (* EvAcquire *)
    injection Hstep as <-. int64_exact.
    destruct (n (enf s) + -1 <? 0) eqn:Hlt;
      [apply Z.ltb_lt in Hlt | apply Z.ltb_ge in Hlt].
    + constructor; simpl; try done.
      * apply Forall_app. split; [done |]. repeat constructor.
      * counts.
      * counts.
    + constructor; simpl; try done.
      * apply Forall_app. split; [done |]. repeat constructor.
      * counts.
      * counts.
  - (* EvCancel *)
    injection Hstep as <-. constructor; done.
  - (* EvResume *)
    destruct (acquires s !! i) as [a |] eqn:Hi; simpl in Hstep; [| discriminate].
    pose proof (Forall_lookup_1 _ _ _ _ Hacq Hi) as Ha.
    destruct Ha as [ctx | r | r]; simpl in Hstep; try discriminate.
    destruct pick.
    + destruct (bool_decide (ctx ∈ fired s)); simpl in Hstep; [| discriminate].
      injection Hstep as <-. constructor; simpl; try done.
      * apply Forall_insert; [done | constructor].
      * counts.
      * counts.
    + destruct (wait (enf s)) as [| w] eqn:Hwait; simpl in Hstep; [discriminate |].
      injection Hstep as <-. constructor; simpl; try done.
      * apply Forall_insert; [done | constructor].
      * counts.
      * counts.
      * lia.
  - (* EvRelease *)
    simpl in Hdisc.
    destruct (acquires s !! i) as [a |] eqn:Hi; simpl in Hstep; [| discriminate].
    pose proof (count_lookup_pos _ _ _ _ Hi Hdisc) as Hpos.
    pose proof (Forall_lookup_1 _ _ _ _ Hacq Hi) as Ha.
    destruct Ha as [ctx | r | r]; simpl in Hstep, Hdisc; try discriminate.
    destruct r; [discriminate |].
    injection Hstep as <-.
    assert (Hg : (1 <= granted s)%nat) by exact Hpos.
    int64_exact.
    destruct (n (enf s) + 1 <=? 0) eqn:Hle;
      [apply Z.leb_le in Hle | apply Z.leb_gt in Hle].
    + constructor; simpl; try done.
      * apply Forall_insert; [done | constructor].
      * apply Forall_app. split; [done |]. repeat constructor.
      * counts.
      * counts.
    + constructor; simpl; try done.
      * apply Forall_insert; [done | constructor].
      * apply Forall_app. split; [done |]. repeat constructor.
      * counts.
      * counts.
  - (* EvSend *)
    destruct (releases s !! j) as [p |] eqn:Hj; simpl in Hstep; [| discriminate].
    pose proof (Forall_lookup_1 _ _ _ _ Hrel Hj) as Hp.
    destruct Hp; simpl in Hstep; [| discriminate].
    destruct (wait (enf s)) as [| w] eqn:Hwait; simpl in Hstep; [| discriminate].
    injection Hstep as <-. constructor; simpl; try done.
    + apply Forall_insert; [done | constructor].
    + counts.
Qed.

Lemma step_acquires_length e s s' :
  step e s = Some s' ->
  (length (acquires s') <= S (length (acquires s)))%nat.
Proof.
  destruct e as [ctx | ctx | i pick | i | j]; simpl; intros Hstep.
  - injection Hstep as <-. simpl. rewrite length_app. simpl. lia.
  - injection Hstep as <-. simpl. lia.
  - destruct (acquires s !! i) as [a |]; simpl in Hstep; [| discriminate].
    destruct (step_prog _ _ _ _) as [[q p] |]; simpl in Hstep; [| discriminate].
    injection Hstep as <-. simpl. rewrite length_insert. lia.
  - destruct (acquires s !! i) as [a |]; simpl in Hstep; [| discriminate].
    destruct (returned (a_code a)) as [t |]; simpl in Hstep; [| discriminate].
    injection Hstep as <-. simpl. rewrite length_insert. lia.
  - destruct (releases s !! j) as [p |]; simpl in Hstep; [| discriminate].
    destruct (step_prog _ _ _ _) as [[q p'] |]; simpl in Hstep; [| discriminate].
    injection Hstep as <-. simpl. lia.
Qed.

Lemma run_inv capacity tr : forall s s',
  inv capacity s ->
  Z.of_nat (length (acquires s)) + Z.of_nat (length tr) <= Int64.max_int64 ->
  obeys disciplined tr s = true ->
  run tr s = Some s' ->
  inv capacity s'.
Proof.
  induction tr as [| e tr IH]; intros s s' Hinv Hlen Hob Hrun; simpl in *.
  - injection Hrun as <-. exact Hinv.
  - apply andb_prop in Hob as [Hd Hob].
    destruct (step e s) as [s1 |] eqn:Hstep; simpl in Hrun; [| discriminate].
    apply (IH s1 s'); try done.
    + apply (step_inv capacity e s s1); try done. lia.
    + pose proof (step_acquires_length _ _ _ Hstep). lia.
Qed.

(** Every state a disciplined run reaches from a new enforcer satisfies
    the invariant, as long as the run is too short for the counter to
    wrap around. *)
Lemma reachable_inv capacity tr s :
  Uint32.in_range capacity ->
  Z.of_nat (length tr) <= Int64.max_int64 ->
  obeys disciplined tr (init capacity) = true ->
  run tr (init capacity) = Some s ->
  inv capacity s.
Proof.
  intros Hc Hlen Hob Hrun.
  apply (run_inv capacity tr (init capacity) s); try done.
  by apply inv_init.
Qed.

(** ** The scenarios, run *)

Example scenario_handoff_counters :
  fmap (fun s => (counter s, granted s, parked s, pending_signals s))
       (run (take 1 scenario_handoff) (init 1)) = Some (0, 1%nat, 0%nat, 0%nat) /\
  fmap (fun s => (counter s, granted s, parked s, pending_signals s))
       (run (take 2 scenario_handoff) (init 1)) = Some (-1, 1%nat, 1%nat, 0%nat) /\
  fmap (fun s => (counter s, granted s, parked s, pending_signals s))
       (run (take 4 scenario_handoff) (init 1)) = Some (0, 0%nat, 1%nat, 1%nat) /\
  fmap (fun s => (counter s, granted s, parked s, pending_signals s))
       (run (take 5 scenario_handoff) (init 1)) = Some (0, 1%nat, 0%nat, 0%nat) /\
  fmap (fun s => (counter s, granted s, parked s, pending_signals s))
       (run scenario_handoff (init 1)) = Some (1, 0%nat, 0%nat, 0%nat).
Proof. repeat split; reflexivity. Qed.

(** With capacity zero, a call whose context is done already is denied
    and leaves the counter at minus one. *)
Example scenario_zero_capacity :
  fmap (fun s => (counter s, fmap a_code (acquires s !! 0%nat) , granted s))
       (run [EvCancel 7%nat; EvAcquire 7%nat; EvResume 0 CaseCtxDone] (init 0))
  = Some (-1, Some (Ret Denied), 0%nat).
Proof. reflexivity. Qed.

Example nonblocking_acquires_3 :
  nonblocking_acquires 10 {| n := 3; wait := 0 |} = 3%nat /\
  nonblocking_acquires 10 {| n := 0; wait := 0 |} = 0%nat /\
  nonblocking_acquires 10 {| n := -2; wait := 1 |} = 0%nat.
Proof. repeat split; reflexivity. Qed.

(** ** The properties of the enforcer *)

(** C1: for every capacity and every run of acquire and release steps
    that keeps to the single outstanding waiter and to ticket
    discipline, the number of tickets that are granted and not released
    is at most the capacity in the state reached.  (The run is shorter
    than 2^63 steps, so that the 64-bit counter has not wrapped; every
    prefix of a run is a run, so the bound holds at every instant.) *)
Theorem granted_at_most_capacity (capacity : Z) (tr : list event) (s : system) :
  Uint32.in_range capacity ->
  Z.of_nat (length tr) <= Int64.max_int64 ->
  obeys single_waiter tr (init capacity) = true ->
  obeys disciplined tr (init capacity) = true ->
  run tr (init capacity) = Some s ->
  Z.of_nat (granted s) <= capacity.
Proof.
  intros Hc Hlen _ Hob Hrun.
  pose proof (reachable_inv capacity tr s Hc Hlen Hob Hrun) as Hinv.
  rewrite (inv_granted_le capacity s Hinv). lia.
Qed.

Lemma granted_at_most_capacity_witness :
  Uint32.in_range 1 /\
  obeys single_waiter (take 5 scenario_handoff) (init 1) = true /\
  obeys disciplined (take 5 scenario_handoff) (init 1) = true /\
  run (take 5 scenario_handoff) (init 1) = Some (final 1 (take 5 scenario_handoff)) /\
  granted (final 1 (take 5 scenario_handoff)) = 1%nat /\
  Z.of_nat (granted (final 1 (take 5 scenario_handoff))) <= 1.
Proof.
  assert (Hc : Uint32.in_range 1) by (unfold Uint32.in_range; lia).
  split; [exact Hc |].
  do 4 (split; [reflexivity |]).
  apply (granted_at_most_capacity 1 (take 5 scenario_handoff)).
  - exact Hc.
  - unfold Int64.max_int64. simpl. lia.
  - reflexivity.
  - reflexivity.
  - reflexivity.
Defined.

(** C2, as stated, fails: after the run [scenario_cancel] on an enforcer
    of capacity one the counter is 0 and no ticket is granted, so that
    capacity - granted = 1 is not the counter. *)
Lemma counter_identity_fails_after_cancel :
  run scenario_cancel (init 1) = Some (final 1 scenario_cancel) /\
  obeys single_waiter scenario_cancel (init 1) = true /\
  obeys disciplined scenario_cancel (init 1) = true /\
  counter (final 1 scenario_cancel) = 0 /\
  granted (final 1 scenario_cancel) = 0%nat /\
  0 <= counter (final 1 scenario_cancel) /\
  1 - Z.of_nat (granted (final 1 scenario_cancel)) <> counter (final 1 scenario_cancel).
Proof.
  do 5 (split; [reflexivity |]).
  split; [vm_compute; discriminate | vm_compute; discriminate].
Qed.

(** C2, amended: in every state a run that keeps to ticket discipline
    reaches from a new enforcer, whenever the counter is at least zero,
    capacity minus the granted tickets is the counter plus the wake
    signals that are pending (buffered in the channel or being sent by a
    release); it is the counter itself when no signal is pending.  (The
    run is shorter than 2^63 steps, so that the counter has not
    wrapped.) *)
Theorem counter_identity_with_signals (capacity : Z) (tr : list event) (s : system) :
  Uint32.in_range capacity ->
  Z.of_nat (length tr) <= Int64.max_int64 ->
  obeys disciplined tr (init capacity) = true ->
  run tr (init capacity) = Some s ->
  0 <= counter s ->
  capacity - Z.of_nat (granted s) = counter s + Z.of_nat (pending_signals s) /\
  (pending_signals s = 0%nat -> capacity - Z.of_nat (granted s) = counter s).
Proof.
  intros Hc Hlen Hob Hrun Hpos.
  pose proof (reachable_inv capacity tr s Hc Hlen Hob Hrun) as Hinv.
  pose proof (inv_granted_le capacity s Hinv) as Hg.
  split; [lia | intros Hp; lia].
Qed.

Lemma counter_identity_with_signals_witness :
  Uint32.in_range 1 /\
  run scenario_cancel (init 1) = Some (final 1 scenario_cancel) /\
  0 <= counter (final 1 scenario_cancel) /\
  pending_signals (final 1 scenario_cancel) = 1%nat /\
  (1 - Z.of_nat (granted (final 1 scenario_cancel)) =
   counter (final 1 scenario_cancel) + Z.of_nat (pending_signals (final 1 scenario_cancel)) /\
   (pending_signals (final 1 scenario_cancel) = 0%nat ->
    1 - Z.of_nat (granted (final 1 scenario_cancel)) = counter (final 1 scenario_cancel))).
Proof.
  assert (Hc : Uint32.in_range 1) by (unfold Uint32.in_range; lia).
  split; [exact Hc |].
  split; [reflexivity |].
  split; [vm_compute; discriminate |].
  split; [reflexivity |].
  apply (counter_identity_with_signals 1 scenario_cancel).
  - exact Hc.
  - unfold Int64.max_int64. simpl. lia.
  - reflexivity.
  - reflexivity.
  - vm_compute. discriminate.
Defined.

(** C3: when the counter is at least one, the atomic decrement of
    [Acquire] leaves the body returned with the granted ticket (the
    select is not reached), and the counter is one less. *)
Theorem acquire_fast_path (fired : gset Context) (pick : select_case)
    (q : StaticQuotaEnforcer) (ctx : Context) :
  Int64.in_range (n q) ->
  1 <= n q ->
  step_prog fired pick q (Acquire ctx) =
  Some ({| n := n q - 1; wait := wait q |}, Ret Granted).
Proof.
  intros Hr Hpos. rewrite step_Acquire. simpl.
  rewrite int64_add_exact
    by (unfold Int64.in_range, Int64.min_int64, Int64.max_int64 in *; lia).
  destruct (n q + -1 <? 0) eqn:Hlt; [apply Z.ltb_lt in Hlt; lia |].
  reflexivity.
Qed.

Lemma acquire_fast_path_witness :
  Int64.in_range 1 /\ 1 <= 1 /\
  step_prog ∅ CaseWait {| n := 1; wait := 0 |} (Acquire 0%nat) =
  Some ({| n := 1 - 1; wait := 0 |}, Ret Granted).
Proof.
  assert (Hr : Int64.in_range 1)
    by (unfold Int64.in_range, Int64.min_int64, Int64.max_int64; lia).
  split; [exact Hr |]. split; [lia |].
  apply (acquire_fast_path ∅ CaseWait {| n := 1; wait := 0 |} 0%nat); simpl; [exact Hr | lia].
Defined.

(** Leaving the select by the context never touches the enforcer. *)
Lemma cancel_step_keeps_enforcer (t : system) (i : nat) (ctx : Context) :
  acquires t !! i = Some {| a_code := parked_acquire ctx; a_released := false |} ->
  ctx ∈ fired t ->
  exists t',
    step (EvResume i CaseCtxDone) t = Some t' /\
    enf t' = enf t /\
    acquires t' !! i = Some {| a_code := Ret Denied; a_released := false |}.
Proof.
  intros Hi Hin. unfold step. rewrite Hi. simpl.
  rewrite bool_decide_eq_true_2 by done. simpl.
  eexists. split; [reflexivity |]. split; [reflexivity |]. simpl.
  apply list_lookup_insert_eq. by eapply lookup_lt_Some.
Qed.

(** C4: a call of [Acquire] that finds the counter negative after its
    decrement is suspended in the select; when its context is done and
    the select leaves by it, the call returns the denied ticket, and the
    enforcer is left as the decrement made it: the counter is one less
    than before the call, nothing is added back.  The last part holds
    in whatever state the suspended call is cancelled. *)
Theorem cancelled_acquire_keeps_decrement (s : system) (ctx : Context) :
  Int64.in_range (counter s) ->
  Int64.add (counter s) (-1) < 0 ->
  (exists s1 s2,
    step (EvAcquire ctx) s = Some s1 /\
    acquires s1 !! length (acquires s) =
      Some {| a_code := parked_acquire ctx; a_released := false |} /\
    counter s1 = counter s - 1 /\
    run [EvCancel ctx; EvResume (length (acquires s)) CaseCtxDone] s1 = Some s2 /\
    acquires s2 !! length (acquires s) =
      Some {| a_code := Ret Denied; a_released := false |} /\
    counter s2 = counter s - 1 /\
    wait (enf s2) = wait (enf s)) /\
  (forall t i,
    acquires t !! i = Some {| a_code := parked_acquire ctx; a_released := false |} ->
    ctx ∈ fired t ->
    exists t',
      step (EvResume i CaseCtxDone) t = Some t' /\
      enf t' = enf t /\
      acquires t' !! i = Some {| a_code := Ret Denied; a_released := false |}).
Proof.
  intros Hr Hneg. split; [| intros t i; apply cancel_step_keeps_enforcer].
  pose proof (int64_add_m1_negative _ Hr Hneg) as Hexact.
  unfold counter in *.
  assert (Hpark : (acquires s ++
             [{| a_code := parked_acquire ctx; a_released := false |}])
             !! length (acquires s) =
           Some {| a_code := parked_acquire ctx; a_released := false |})
    by (by apply list_lookup_middle).
  eexists. eexists.
  split.
  { unfold step. rewrite step_Acquire. simpl.
    apply Z.ltb_lt in Hneg. rewrite Hneg. reflexivity. }
  split; [exact Hpark |].
  split; [simpl; lia |].
  split.
  { simpl. rewrite Hpark. simpl.
    rewrite bool_decide_eq_true_2 by set_solver. reflexivity. }
  split.
  { simpl. apply list_lookup_insert_eq. rewrite length_app. simpl. lia. }
  split; [simpl; lia | reflexivity].
Qed.

Lemma cancelled_acquire_keeps_decrement_witness :
  Int64.in_range (counter (init 0)) /\
  Int64.add (counter (init 0)) (-1) < 0 /\
  exists s1 s2,
    step (EvAcquire 7%nat) (init 0) = Some s1 /\
    run [EvCancel 7%nat; EvResume 0 CaseCtxDone] s1 = Some s2 /\
    acquires s2 !! 0%nat = Some {| a_code := Ret Denied; a_released := false |} /\
    counter s2 = -1.
Proof.
  assert (Hr : Int64.in_range (counter (init 0)))
    by (vm_compute; split; discriminate).
  assert (Hneg : Int64.add (counter (init 0)) (-1) < 0) by reflexivity.
  split; [exact Hr |]. split; [exact Hneg |].
  destruct (cancelled_acquire_keeps_decrement (init 0) 7%nat Hr Hneg)
    as [(s1 & s2 & H1 & _ & _ & H2 & H3 & H4 & _) _].
  exists s1, s2. repeat split; assumption.
Defined.

(** C5: the atomic step of every call of [Release] adds one to the
    counter ([atomic.Int64.Add(1)]: the sum in 64 bits, which is the
    counter plus one below the largest int64) and touches nothing else;
    what is left of the body is one channel send when the new value is
    at most zero, and nothing when it is positive. *)
Theorem release_increments_and_signals (fired : gset Context) (pick : select_case)
    (q : StaticQuotaEnforcer) (t : Ticket) :
  Int64.in_range (n q) ->
  exists p,
    step_prog fired pick q (Release t) =
      Some ({| n := Int64.add (n q) 1; wait := wait q |}, p) /\
    (n q < Int64.max_int64 -> Int64.add (n q) 1 = n q + 1) /\
    (Int64.add (n q) 1 <= 0 -> p = wait_send /\ sends p = 1%nat) /\
    (0 < Int64.add (n q) 1 -> p = Ret tt /\ sends p = 0%nat).
Proof.
  intros Hr. rewrite step_Release. simpl. eexists. split; [reflexivity |].
  split.
  { intros Hlt. apply int64_add_exact.
    unfold Int64.in_range, Int64.min_int64, Int64.max_int64 in *. lia. }
  split; intros Hv.
  - apply Z.leb_le in Hv. rewrite Hv. split; reflexivity.
  - apply Z.leb_gt in Hv. rewrite Hv. split; reflexivity.
Qed.

Lemma release_increments_and_signals_witness :
  Int64.in_range (n {| n := -1; wait := 0 |}) /\
  exists p,
    step_prog ∅ CaseWait {| n := -1; wait := 0 |} (Release Granted) =
      Some ({| n := 0; wait := 0 |}, p) /\
    p = wait_send /\ sends p = 1%nat.
Proof.
  assert (Hr : Int64.in_range (n {| n := -1; wait := 0 |}))
    by (vm_compute; split; discriminate).
  split; [exact Hr |].
  destruct (release_increments_and_signals ∅ CaseWait {| n := -1; wait := 0 |} Granted Hr)
    as (p & Hstep & _ & Hle & _).
  exists p. split; [exact Hstep |].
  apply Hle. vm_compute. discriminate.
Defined.

(** C6, as stated, fails: a release that brings the counter from -1 to
    0 observes a value that is not negative, and sends a signal. *)
Lemma release_signals_at_zero :
  step_prog ∅ CaseWait {| n := -1; wait := 0 |} (Release Granted) =
    Some ({| n := 0; wait := 0 |}, wait_send) /\
  sends (A := unit) wait_send = 1%nat /\
  step_prog ∅ CaseWait {| n := 0; wait := 0 |} wait_send =
    Some ({| n := 0; wait := 1 |}, Ret tt) /\
  ~ (0 < 0).
Proof. repeat split; try reflexivity. lia. Qed.

(** C6, amended: a call of [Release] sends a wake signal exactly when
    the counter it observes after its increment is at most zero: one
    signal for such a release, and none otherwise. *)
Theorem release_signals_iff_nonpositive (fired : gset Context) (pick : select_case)
    (q : StaticQuotaEnforcer) (t : Ticket) :
  exists q' p,
    step_prog fired pick q (Release t) = Some (q', p) /\
    n q' = Int64.add (n q) 1 /\
    (sends p = 1%nat <-> n q' <= 0) /\
    (sends p = 0%nat <-> 0 < n q').
Proof.
  rewrite step_Release. simpl. eexists. eexists.
  split; [reflexivity |]. split; [reflexivity |]. simpl.
  destruct (Int64.add (n q) 1 <=? 0) eqn:Hv;
    [apply Z.leb_le in Hv | apply Z.leb_gt in Hv]; simpl;
    split; split; intros H; try done; lia.
Qed.

(** C7: for every capacity of type uint32 the new enforcer has the
    capacity as its counter and an empty channel. *)
Theorem new_enforcer_counter (capacity : Z) :
  Uint32.in_range capacity ->
  n (NewStaticQuotaEnforcer capacity) = capacity /\
  wait (NewStaticQuotaEnforcer capacity) = 0%nat.
Proof.
  intros Hc. unfold NewStaticQuotaEnforcer. simpl.
  split; [by apply uint32_to_int64_exact | reflexivity].
Qed.

Lemma new_enforcer_counter_witness :
  Uint32.in_range 5 /\
  n (NewStaticQuotaEnforcer 5) = 5 /\ wait (NewStaticQuotaEnforcer 5) = 0%nat.
Proof.
  assert (Hc : Uint32.in_range 5) by (unfold Uint32.in_range; lia).
  split; [exact Hc |]. apply (new_enforcer_counter 5 Hc).
Defined.

(** C8: when a call of [Acquire] returns on the fast path, releasing
    the ticket it granted brings the counter (and the enforcer) back to
    what it was before the call; of any number of further calls in a
    row, exactly one more returns without suspending than would after
    the acquire alone. *)
Theorem acquire_release_round_trip (fired : gset Context) (pick : select_case)
    (q q1 : StaticQuotaEnforcer) (ctx : Context) :
  Int64.in_range (n q) ->
  step_prog fired pick q (Acquire ctx) = Some (q1, Ret Granted) ->
  exists q2 p,
    step_prog fired pick q1 (Release Granted) = Some (q2, p) /\
    n q2 = n q /\
    q2 = q /\
    forall k, nonblocking_acquires (S k) q2 = S (nonblocking_acquires k q1).
Proof.
  intros Hr Hacq. rewrite step_Acquire in Hacq. simpl in Hacq.
  destruct (Int64.add (n q) (-1) <? 0) eqn:Hlt; [discriminate |].
  injection Hacq as <-.
  rewrite step_Release. simpl. rewrite int64_add_m1_1 by exact Hr.
  eexists. eexists. split; [reflexivity |]. split; [reflexivity |].
  split; [by destruct q |].
  intros k. simpl. unfold acquire_now. rewrite step_Acquire. simpl.
  rewrite Hlt. reflexivity.
Qed.

Lemma acquire_release_round_trip_witness :
  Int64.in_range (n {| n := 2; wait := 0 |}) /\
  step_prog ∅ CaseWait {| n := 2; wait := 0 |} (Acquire 0%nat) =
    Some ({| n := 1; wait := 0 |}, Ret Granted) /\
  exists q2 p,
    step_prog ∅ CaseWait {| n := 1; wait := 0 |} (Release Granted) = Some (q2, p) /\
    n q2 = 2 /\
    nonblocking_acquires 5 q2 = S (nonblocking_acquires 4 {| n := 1; wait := 0 |}).
Proof.
  assert (Hr : Int64.in_range (n {| n := 2; wait := 0 |}))
    by (vm_compute; split; discriminate).
  assert (Hacq : step_prog ∅ CaseWait {| n := 2; wait := 0 |} (Acquire 0%nat) =
                 Some ({| n := 1; wait := 0 |}, Ret Granted)) by reflexivity.
  split; [exact Hr |]. split; [exact Hacq |].
  destruct (acquire_release_round_trip ∅ CaseWait _ _ 0%nat Hr Hacq)
    as (q2 & p & Hrel & Hn & _ & Hk).
  exists q2, p. split; [exact Hrel |]. split; [exact Hn |]. apply (Hk 4%nat).
Defined.

(** C9: the context is looked at in the select only.  Whenever the
    counter after the decrement is at least zero, the call returns the
    granted ticket, whatever contexts are done, the context of the call
    among them. *)
Theorem fast_path_ignores_context (fired : gset Context) (pick : select_case)
    (q : StaticQuotaEnforcer) (ctx : Context) :
  0 <= Int64.add (n q) (-1) ->
  step_prog fired pick q (Acquire ctx) =
    Some ({| n := Int64.add (n q) (-1); wait := wait q |}, Ret Granted) /\
  step_prog ({[ ctx ]} ∪ fired) pick q (Acquire ctx) =
    Some ({| n := Int64.add (n q) (-1); wait := wait q |}, Ret Granted).
Proof.
  intros Hpos. rewrite !step_Acquire. simpl.
  apply Z.ltb_ge in Hpos. rewrite Hpos. split; reflexivity.
Qed.

Lemma fast_path_ignores_context_witness :
  0 <= Int64.add (n {| n := 1; wait := 0 |}) (-1) /\
  3%nat ∈ ({[ 3%nat ]} : gset Context) /\
  step_prog {[ 3%nat ]} CaseCtxDone {| n := 1; wait := 0 |} (Acquire 3%nat) =
    Some ({| n := 0; wait := 0 |}, Ret Granted).
Proof.
  assert (Hpos : 0 <= Int64.add (n {| n := 1; wait := 0 |}) (-1))
    by (vm_compute; discriminate).
  split; [exact Hpos |]. split; [set_solver |].
  apply (fast_path_ignores_context {[ 3%nat ]} CaseCtxDone _ 3%nat Hpos).
Defined.



(** ** Further properties of the methods *)

(** *** Whatever the callers do *)

Lemma step_shapes e s s' :
  Forall acquire_shape (acquires s) ->
  Forall release_shape (releases s) ->
  step e s = Some s' ->
  Forall acquire_shape (acquires s') /\ Forall release_shape (releases s').
Proof.
  intros Hacq Hrel Hstep.
  destruct e as [ctx | ctx | i pick | i | j]; simpl in Hstep.
  - injection Hstep as <-. simpl. split; [| done].
    apply Forall_app. split; [done |]. repeat constructor.
    destruct (Int64.add (n (enf s)) (-1) <? 0); constructor.
  - injection Hstep as <-. done.
  - destruct (acquires s !! i) as [a |] eqn:Hi; simpl in Hstep; [| discriminate].
    pose proof (Forall_lookup_1 _ _ _ _ Hacq Hi) as Ha.
    destruct Ha as [ctx | r | r]; simpl in Hstep; try discriminate.
    destruct pick.
    + destruct (bool_decide (ctx ∈ fired s)); simpl in Hstep; [| discriminate].
      injection Hstep as <-. simpl. split; [| done].
      apply Forall_insert; [done | constructor].
    + destruct (wait (enf s)) as [| w]; simpl in Hstep; [discriminate |].
      injection Hstep as <-. simpl. split; [| done].
      apply Forall_insert; [done | constructor].
  - destruct (acquires s !! i) as [a |] eqn:Hi; simpl in Hstep; [| discriminate].
    pose proof (Forall_lookup_1 _ _ _ _ Hacq Hi) as Ha.
    destruct Ha as [ctx | r | r]; simpl in Hstep; try discriminate.
    + injection Hstep as <-. simpl. split.
      * apply Forall_insert; [done | constructor].
      * apply Forall_app. split; [done |]. repeat constructor.
        destruct (Int64.add (n (enf s)) 1 <=? 0); constructor.
    + injection Hstep as <-. simpl. split.
      * apply Forall_insert; [done | constructor].
      * apply Forall_app. split; [done |]. repeat constructor.
        destruct (Int64.add (n (enf s)) 1 <=? 0); constructor.
  - destruct (releases s !! j) as [p |] eqn:Hj; simpl in Hstep; [| discriminate].
    pose proof (Forall_lookup_1 _ _ _ _ Hrel Hj) as Hp.
    destruct Hp; simpl in Hstep; [| discriminate].
    destruct (wait (enf s)) as [| w]; simpl in Hstep; [| discriminate].
    injection Hstep as <-. simpl. split; [done |].
    apply Forall_insert; [done | constructor].
Qed.

Lemma run_shapes tr : forall s s',
  Forall acquire_shape (acquires s) ->
  Forall release_shape (releases s) ->
  run tr s = Some s' ->
  Forall acquire_shape (acquires s') /\ Forall release_shape (releases s').
Proof.
  induction tr as [| e tr IH]; intros s s' Hacq Hrel Hrun; simpl in Hrun.
  - injection Hrun as <-. done.
  - destruct (step e s) as [s1 |] eqn:Hstep; simpl in Hrun; [| discriminate].
    destruct (step_shapes e s s1 Hacq Hrel Hstep) as [Hacq1 Hrel1].
    by apply (IH s1 s').
Qed.

Lemma reachable_shapes capacity tr s :
  run tr (init capacity) = Some s ->
  Forall acquire_shape (acquires s) /\ Forall release_shape (releases s).
Proof. intros Hrun. apply (run_shapes tr (init capacity) s); simpl; done. Qed.

(** X1: whatever the callers do, a call of [Acquire] comes to be
    denied in one way only: it was suspended in the select, its own
    context is done, and the select leaves by that case.  No other step
    makes a call denied, and a call never starts out denied. *)
Theorem denied_only_by_own_context (capacity : Z) (tr : list event) (s s' : system)
    (e : event) (i : nat) (a' : acquire_call) :
  run tr (init capacity) = Some s ->
  step e s = Some s' ->
  acquires s' !! i = Some a' ->
  is_denied a' = true ->
  (exists a, acquires s !! i = Some a /\ is_denied a = true) \/
  (exists ctx,
     e = EvResume i CaseCtxDone /\
     acquires s !! i = Some {| a_code := parked_acquire ctx; a_released := false |} /\
     ctx ∈ fired s).
Proof.
  intros Hrun Hstep Hi' Hden.
  destruct (reachable_shapes capacity tr s Hrun) as [Hacq _].
  destruct e as [ctx | ctx | j pick | j | j]; simpl in Hstep.
  - injection Hstep as <-. simpl in Hi'.
    destruct (decide (i < length (acquires s))%nat) as [Hlt | Hge].
    + rewrite lookup_app_l in Hi' by done. left. eauto.
    + apply lookup_lt_Some in Hi' as Hlen. rewrite length_app in Hlen. simpl in Hlen.
      assert (i = length (acquires s)) as -> by lia.
      rewrite list_lookup_middle in Hi' by done. injection Hi' as <-.
      unfold is_denied in Hden. simpl in Hden.
      destruct (Int64.add (n (enf s)) (-1) <? 0); discriminate.
  - injection Hstep as <-. left. eauto.
  - destruct (acquires s !! j) as [a |] eqn:Hj; simpl in Hstep; [| discriminate].
    destruct (decide (i = j)) as [-> | Hne].
    + pose proof (Forall_lookup_1 _ _ _ _ Hacq Hj) as Ha.
      destruct Ha as [ctx | r | r]; simpl in Hstep; try discriminate.
      destruct pick.
      * destruct (bool_decide (ctx ∈ fired s)) eqn:Hin; simpl in Hstep; [| discriminate].
        apply bool_decide_eq_true_1 in Hin. right. exists ctx. done.
      * destruct (wait (enf s)) as [| w]; simpl in Hstep; [discriminate |].
        injection Hstep as <-. simpl in Hi'.
        rewrite list_lookup_insert_eq in Hi' by (by eapply lookup_lt_Some).
        injection Hi' as <-. discriminate.
    + destruct (step_prog _ _ _ _) as [[q p] |]; simpl in Hstep; [| discriminate].
      injection Hstep as <-. simpl in Hi'.
      rewrite list_lookup_insert_ne in Hi' by done. left. eauto.
  - destruct (acquires s !! j) as [a |] eqn:Hj; simpl in Hstep; [| discriminate].
    destruct (returned (a_code a)) as [t |]; simpl in Hstep; [| discriminate].
    injection Hstep as <-. simpl in Hi'.
    destruct (decide (i = j)) as [-> | Hne].
    + rewrite list_lookup_insert_eq in Hi' by (by eapply lookup_lt_Some).
      injection Hi' as <-. left. exists a. done.
    + rewrite list_lookup_insert_ne in Hi' by done. left. eauto.
  - destruct (releases s !! j) as [p |]; simpl in Hstep; [| discriminate].
    destruct (step_prog _ _ _ _) as [[q p'] |]; simpl in Hstep; [| discriminate].
    injection Hstep as <-. left. eauto.
Qed.

Lemma denied_only_by_own_context_witness :
  run [EvCancel 7%nat; EvAcquire 7%nat] (init 0) =
    Some (final 0 [EvCancel 7%nat; EvAcquire 7%nat]) /\
  step (EvResume 0 CaseCtxDone) (final 0 [EvCancel 7%nat; EvAcquire 7%nat]) =
    Some (final 0 [EvCancel 7%nat; EvAcquire 7%nat; EvResume 0 CaseCtxDone]) /\
  acquires (final 0 [EvCancel 7%nat; EvAcquire 7%nat; EvResume 0 CaseCtxDone]) !! 0%nat =
    Some {| a_code := Ret Denied; a_released := false |} /\
  ((exists a, acquires (final 0 [EvCancel 7%nat; EvAcquire 7%nat]) !! 0%nat = Some a /\
              is_denied a = true) \/
   (exists ctx,
      EvResume 0 CaseCtxDone = EvResume 0 CaseCtxDone /\
      acquires (final 0 [EvCancel 7%nat; EvAcquire 7%nat]) !! 0%nat =
        Some {| a_code := parked_acquire ctx; a_released := false |} /\
      ctx ∈ fired (final 0 [EvCancel 7%nat; EvAcquire 7%nat]))).
Proof.
  do 3 (split; [reflexivity |]).
  apply (denied_only_by_own_context 0 [EvCancel 7%nat; EvAcquire 7%nat]
           (final 0 [EvCancel 7%nat; EvAcquire 7%nat])
           (final 0 [EvCancel 7%nat; EvAcquire 7%nat; EvResume 0 CaseCtxDone])
           (EvResume 0 CaseCtxDone) 0%nat
           {| a_code := Ret Denied; a_released := false |}); reflexivity.
Defined.

(** *** When [Acquire] is called synchronously *)

Lemma step_single_waiter e s s' :
  Forall acquire_shape (acquires s) ->
  single_waiter e s = true ->
  (parked s <= 1)%nat ->
  step e s = Some s' ->
  (parked s' <= 1)%nat.
Proof.
  intros Hacq Hsw Hp Hstep.
  destruct e as [ctx | ctx | i pick | i | j]; simpl in Hstep, Hsw.
  - injection Hstep as <-. apply Nat.eqb_eq in Hsw.
    apply Nat2Z.inj_le.
    destruct (Int64.add (n (enf s)) (-1) <? 0); counts.
  - injection Hstep as <-. done.
  - destruct (acquires s !! i) as [a |] eqn:Hi; simpl in Hstep; [| discriminate].
    pose proof (Forall_lookup_1 _ _ _ _ Hacq Hi) as Ha.
    destruct Ha as [ctx | r | r]; simpl in Hstep; try discriminate.
    destruct pick.
    + destruct (bool_decide (ctx ∈ fired s)); simpl in Hstep; [| discriminate].
      injection Hstep as <-. apply Nat2Z.inj_le. counts.
    + destruct (wait (enf s)) as [| w]; simpl in Hstep; [discriminate |].
      injection Hstep as <-. apply Nat2Z.inj_le. counts.
  - destruct (acquires s !! i) as [a |] eqn:Hi; simpl in Hstep; [| discriminate].
    destruct (returned (a_code a)) as [t |]; simpl in Hstep; [| discriminate].
    injection Hstep as <-. apply Nat2Z.inj_le. counts.
    change (is_parked {| a_code := a_code a; a_released := true |}) with (is_parked a).
    destruct (is_parked a); lia.
  - destruct (releases s !! j) as [p |]; simpl in Hstep; [| discriminate].
    destruct (step_prog _ _ _ _) as [[q p'] |]; simpl in Hstep; [| discriminate].
    injection Hstep as <-. done.
Qed.

Lemma run_single_waiter tr : forall s s',
  Forall acquire_shape (acquires s) ->
  Forall release_shape (releases s) ->
  obeys single_waiter tr s = true ->
  (parked s <= 1)%nat ->
  run tr s = Some s' ->
  (parked s' <= 1)%nat.
Proof.
  induction tr as [| e tr IH]; intros s s' Hacq Hrel Hob Hp Hrun; simpl in *.
  - injection Hrun as <-. exact Hp.
  - apply andb_prop in Hob as [Hsw Hob].
    destruct (step e s) as [s1 |] eqn:Hstep; simpl in Hrun; [| discriminate].
    destruct (step_shapes e s s1 Hacq Hrel Hstep) as [Hacq1 Hrel1].
    apply (IH s1 s'); try done.
    by apply (step_single_waiter e s s1).
Qed.

Lemma reachable_single_waiter capacity tr s :
  obeys single_waiter tr (init capacity) = true ->
  run tr (init capacity) = Some s ->
  (parked s <= 1)%nat.
Proof.
  intros Hob Hrun.
  apply (run_single_waiter tr (init capacity) s); simpl; try done.
  unfold parked. simpl. lia.
Qed.

(** X2: when [Acquire] is called synchronously and tickets are
    released with discipline, the counter is never below minus one
    minus the number of denied calls; as long as no wait has been
    cancelled it is never less than -1, as the comment in [Release]
    says.  Every cancelled wait lowers the bound by one. *)
Theorem counter_lower_bound (capacity : Z) (tr : list event) (s : system) :
  Uint32.in_range capacity ->
  Z.of_nat (length tr) <= Int64.max_int64 ->
  obeys single_waiter tr (init capacity) = true ->
  obeys disciplined tr (init capacity) = true ->
  run tr (init capacity) = Some s ->
  - 1 - Z.of_nat (denied s) <= counter s /\
  (denied s = 0%nat -> -1 <= counter s).
Proof.
  intros Hc Hlen Hsw Hob Hrun.
  pose proof (reachable_single_waiter capacity tr s Hsw Hrun) as Hp.
  destruct (reachable_inv capacity tr s Hc Hlen Hob Hrun) as [_ _ _ _ Hs _].
  split; [lia | intros Hd; lia].
Qed.

Lemma counter_lower_bound_witness :
  Uint32.in_range 1 /\
  run (take 4 scenario_cancel) (init 1) = Some (final 1 (take 4 scenario_cancel)) /\
  denied (final 1 (take 4 scenario_cancel)) = 1%nat /\
  counter (final 1 (take 4 scenario_cancel)) = -1 /\
  - 1 - Z.of_nat (denied (final 1 (take 4 scenario_cancel)))
    <= counter (final 1 (take 4 scenario_cancel)).
Proof.
  assert (Hc : Uint32.in_range 1) by (unfold Uint32.in_range; lia).
  split; [exact Hc |]. do 3 (split; [reflexivity |]).
  apply (counter_lower_bound 1 (take 4 scenario_cancel)).
  - exact Hc.
  - unfold Int64.max_int64. simpl. lia.
  - reflexivity.
  - reflexivity.
  - reflexivity.
Defined.

(** X3: when [Acquire] is called synchronously, tickets are released
    with discipline and no wait has been cancelled, a call of [Release]
    never blocks: at most one wake signal is pending, so whenever a
    release is at its channel send the channel is empty and the send
    goes through, which completes the call. *)
Theorem release_never_blocks (capacity : Z) (tr : list event) (s : system)
    (j : nat) (p : prog unit) :
  Uint32.in_range capacity ->
  Z.of_nat (length tr) <= Int64.max_int64 ->
  obeys single_waiter tr (init capacity) = true ->
  obeys disciplined tr (init capacity) = true ->
  run tr (init capacity) = Some s ->
  denied s = 0%nat ->
  releases s !! j = Some p ->
  is_sending p = true ->
  (pending_signals s <= 1)%nat /\
  exists s',
    step (EvSend j) s = Some s' /\
    releases s' !! j = Some (Ret tt) /\
    wait (enf s') = 1%nat.
Proof.
  intros Hc Hlen Hsw Hob Hrun Hd Hj Hsend.
  pose proof (reachable_single_waiter capacity tr s Hsw Hrun) as Hp.
  destruct (reachable_inv capacity tr s Hc Hlen Hob Hrun) as [_ _ Hrel _ Hs _].
  pose proof (count_lookup_pos _ _ _ _ Hj Hsend) as Hpos.
  assert (Hpend : (pending_signals s <= 1)%nat) by lia.
  split; [exact Hpend |].
  assert (Hw : wait (enf s) = 0%nat)
    by (unfold pending_signals, sending in Hpend; lia).
  pose proof (Forall_lookup_1 _ _ _ _ Hrel Hj) as Hshape.
  destruct Hshape; [| discriminate].
  unfold step. rewrite Hj. simpl. rewrite Hw. simpl.
  eexists. split; [reflexivity |]. simpl. split; [| reflexivity].
  apply list_lookup_insert_eq. by eapply lookup_lt_Some.
Qed.

Lemma release_never_blocks_witness :
  Uint32.in_range 1 /\
  run (take 3 scenario_handoff) (init 1) = Some (final 1 (take 3 scenario_handoff)) /\
  denied (final 1 (take 3 scenario_handoff)) = 0%nat /\
  releases (final 1 (take 3 scenario_handoff)) !! 0%nat = Some wait_send /\
  exists s',
    step (EvSend 0) (final 1 (take 3 scenario_handoff)) = Some s' /\
    releases s' !! 0%nat = Some (Ret tt) /\
    wait (enf s') = 1%nat.
Proof.
  assert (Hc : Uint32.in_range 1) by (unfold Uint32.in_range; lia).
  split; [exact Hc |]. do 3 (split; [reflexivity |]).
  apply (release_never_blocks 1 (take 3 scenario_handoff) _ 0%nat wait_send).
  - exact Hc.
  - unfold Int64.max_int64. simpl. lia.
  - reflexivity.
  - reflexivity.
  - reflexivity.
  - reflexivity.
  - reflexivity.
  - reflexivity.
Defined.

(** X4: under ticket discipline every decrement of the counter is
    accounted for by one call: the capacity minus the counter is the
    number of granted plus suspended plus denied calls (a denied call
    keeps its decrement for good); and the capacity minus the granted
    tickets is the positive part of the counter plus the pending wake
    signals. *)
Theorem counter_accounting (capacity : Z) (tr : list event) (s : system) :
  Uint32.in_range capacity ->
  Z.of_nat (length tr) <= Int64.max_int64 ->
  obeys disciplined tr (init capacity) = true ->
  run tr (init capacity) = Some s ->
  capacity - counter s =
    Z.of_nat (granted s) + Z.of_nat (parked s) + Z.of_nat (denied s) /\
  capacity - Z.of_nat (granted s) =
    Z.max 0 (counter s) + Z.of_nat (pending_signals s).
Proof.
  intros Hc Hlen Hob Hrun.
  destruct (reachable_inv capacity tr s Hc Hlen Hob Hrun) as [_ _ _ Hn Hs _].
  split; lia.
Qed.

Lemma counter_accounting_witness :
  Uint32.in_range 1 /\
  run (take 4 scenario_cancel) (init 1) = Some (final 1 (take 4 scenario_cancel)) /\
  counter (final 1 (take 4 scenario_cancel)) = -1 /\
  (1 - counter (final 1 (take 4 scenario_cancel)) =
     Z.of_nat (granted (final 1 (take 4 scenario_cancel))) +
     Z.of_nat (parked (final 1 (take 4 scenario_cancel))) +
     Z.of_nat (denied (final 1 (take 4 scenario_cancel))) /\
   1 - Z.of_nat (granted (final 1 (take 4 scenario_cancel))) =
     Z.max 0 (counter (final 1 (take 4 scenario_cancel))) +
     Z.of_nat (pending_signals (final 1 (take 4 scenario_cancel)))).
Proof.
  assert (Hc : Uint32.in_range 1) by (unfold Uint32.in_range; lia).
  split; [exact Hc |]. do 2 (split; [reflexivity |]).
  apply (counter_accounting 1 (take 4 scenario_cancel)).
  - exact Hc.
  - unfold Int64.max_int64. simpl. lia.
  - reflexivity.
  - reflexivity.
Defined.

(** X5: under ticket discipline, when no wait has been cancelled and no
    call is suspended, the counter is not negative, no wake signal is
    pending (the channel is empty and no release is at its send), and
    the counter is the capacity minus the granted tickets. *)
Theorem quiescent_counter_identity (capacity : Z) (tr : list event) (s : system) :
  Uint32.in_range capacity ->
  Z.of_nat (length tr) <= Int64.max_int64 ->
  obeys disciplined tr (init capacity) = true ->
  run tr (init capacity) = Some s ->
  denied s = 0%nat ->
  parked s = 0%nat ->
  0 <= counter s /\
  wait (enf s) = 0%nat /\
  sending s = 0%nat /\
  counter s = capacity - Z.of_nat (granted s).
Proof.
  intros Hc Hlen Hob Hrun Hd Hp.
  destruct (reachable_inv capacity tr s Hc Hlen Hob Hrun) as [_ _ _ Hn Hs _].
  unfold pending_signals in Hs. repeat split; lia.
Qed.

Lemma quiescent_counter_identity_witness :
  Uint32.in_range 1 /\
  run scenario_handoff (init 1) = Some (final 1 scenario_handoff) /\
  denied (final 1 scenario_handoff) = 0%nat /\
  parked (final 1 scenario_handoff) = 0%nat /\
  (0 <= counter (final 1 scenario_handoff) /\
   wait (enf (final 1 scenario_handoff)) = 0%nat /\
   sending (final 1 scenario_handoff) = 0%nat /\
   counter (final 1 scenario_handoff) =
     1 - Z.of_nat (granted (final 1 scenario_handoff))).
Proof.
  assert (Hc : Uint32.in_range 1) by (unfold Uint32.in_range; lia).
  split; [exact Hc |]. do 3 (split; [reflexivity |]).
  apply (quiescent_counter_identity 1 scenario_handoff).
  - exact Hc.
  - unfold Int64.max_int64. simpl. lia.
  - reflexivity.
  - reflexivity.
  - reflexivity.
  - reflexivity.
Defined.

Lemma run_acquires_length tr : forall s s',
  run tr s = Some s' ->
  (length (acquires s') <= length (acquires s) + length tr)%nat.
Proof.
  induction tr as [| e tr IH]; intros s s' Hrun; simpl in Hrun.
  - injection Hrun as <-. simpl. lia.
  - destruct (step e s) as [s1 |] eqn:Hstep; simpl in Hrun; [| discriminate].
    pose proof (step_acquires_length _ _ _ Hstep).
    pose proof (IH s1 s' Hrun). simpl. lia.
Qed.

(** X6: under ticket discipline no wake-up is lost.  While a call is
    suspended, the release of a granted ticket is accepted, increments
    the counter by one and leaves at least one wake signal pending for
    the suspended call. *)
Theorem release_signals_waiter (capacity : Z) (tr : list event) (s : system) (g : nat) :
  Uint32.in_range capacity ->
  Z.of_nat (length tr) <= Int64.max_int64 ->
  obeys disciplined tr (init capacity) = true ->
  run tr (init capacity) = Some s ->
  (1 <= parked s)%nat ->
  disciplined (EvRelease g) s = true ->
  exists s',
    step (EvRelease g) s = Some s' /\
    counter s' = counter s + 1 /\
    parked s' = parked s /\
    (1 <= pending_signals s')%nat.
Proof.
  intros Hc Hlen Hob Hrun Hpk Hdisc.
  pose proof (reachable_inv capacity tr s Hc Hlen Hob Hrun) as Hinv.
  pose proof (inv_counter_bounds _ _ Hinv) as Hb.
  pose proof (run_acquires_length tr _ _ Hrun) as Hal. simpl in Hal.
  destruct Hinv as [_ Hacq Hrel Hn Hs Hw].
  assert (Hcap : 0 <= capacity < 2 ^ 32) by exact Hc.
  unfold Int64.max_int64 in Hlen.
  simpl in Hdisc.
  destruct (acquires s !! g) as [a |] eqn:Hg; [| discriminate].
  pose proof (count_lookup_pos _ _ _ _ Hg Hdisc) as Hpos.
  pose proof (Forall_lookup_1 _ _ _ _ Hacq Hg) as Ha.
  destruct Ha as [ctx | r | r]; simpl in Hdisc; try discriminate.
  destruct r; [discriminate |].
  assert (Hgr : (1 <= granted s)%nat) by exact Hpos.
  unfold step. rewrite Hg. simpl. int64_exact.
  eexists. split; [reflexivity |].
  split; [reflexivity |].
  split.
  - apply Nat2Z.inj. counts.
  - apply Nat2Z.inj_le.
    destruct (n (enf s) + 1 <=? 0) eqn:Hle;
      [apply Z.leb_le in Hle | apply Z.leb_gt in Hle]; counts.
Qed.

Lemma release_signals_waiter_witness :
  Uint32.in_range 1 /\
  run (take 2 scenario_handoff) (init 1) = Some (final 1 (take 2 scenario_handoff)) /\
  parked (final 1 (take 2 scenario_handoff)) = 1%nat /\
  disciplined (EvRelease 0) (final 1 (take 2 scenario_handoff)) = true /\
  exists s',
    step (EvRelease 0) (final 1 (take 2 scenario_handoff)) = Some s' /\
    counter s' = counter (final 1 (take 2 scenario_handoff)) + 1 /\
    parked s' = parked (final 1 (take 2 scenario_handoff)) /\
    (1 <= pending_signals s')%nat.
Proof.
  assert (Hc : Uint32.in_range 1) by (unfold Uint32.in_range; lia).
  split; [exact Hc |]. do 3 (split; [reflexivity |]).
  apply (release_signals_waiter 1 (take 2 scenario_handoff)).
  - exact Hc.
  - unfold Int64.max_int64. simpl. lia.
  - reflexivity.
  - reflexivity.
  - vm_compute. lia.
  - reflexivity.
Defined.

(** X7: the hand-over of a slot.  Under ticket discipline, when a call
    is suspended and no wake signal is pending, releasing a granted
    ticket, its send, and the resumption of the suspended call all go
    through in this order; the suspended call returns the granted
    ticket, the number of granted tickets is what it was, the counter is
    one more, and again no signal is pending. *)
Theorem release_hands_over (capacity : Z) (tr : list event) (s : system)
    (i g : nat) (ctx : Context) :
  Uint32.in_range capacity ->
  Z.of_nat (length tr) <= Int64.max_int64 ->
  obeys disciplined tr (init capacity) = true ->
  run tr (init capacity) = Some s ->
  acquires s !! i = Some {| a_code := parked_acquire ctx; a_released := false |} ->
  disciplined (EvRelease g) s = true ->
  pending_signals s = 0%nat ->
  exists s',
    run [EvRelease g; EvSend (length (releases s)); EvResume i CaseWait] s = Some s' /\
    acquires s' !! i = Some {| a_code := Ret Granted; a_released := false |} /\
    granted s' = granted s /\
    (parked s' + 1)%nat = parked s /\
    counter s' = counter s + 1 /\
    pending_signals s' = 0%nat.
Proof.
  intros Hc Hlen Hob Hrun Hi Hdisc Hpend.
  pose proof (reachable_inv capacity tr s Hc Hlen Hob Hrun) as Hinv.
  pose proof (inv_counter_bounds _ _ Hinv) as Hb.
  pose proof (run_acquires_length tr _ _ Hrun) as Hal. simpl in Hal.
  destruct Hinv as [_ Hacq Hrel Hn Hs Hw].
  assert (Hcap : 0 <= capacity < 2 ^ 32) by exact Hc.
  unfold Int64.max_int64 in Hlen.
  simpl in Hdisc.
  destruct (acquires s !! g) as [a |] eqn:Hg; [| discriminate].
  pose proof (count_lookup_pos is_granted _ _ _ Hg Hdisc) as Hgr.
  pose proof (count_lookup_pos is_parked _ _ _ Hi eq_refl) as Hpk.
  pose proof (Forall_lookup_1 _ _ _ _ Hacq Hg) as Ha.
  destruct Ha as [ctx' | r | r]; simpl in Hdisc; try discriminate.
  destruct r; [discriminate |].
  assert (Hne : g <> i) by (intros ->; rewrite Hi in Hg; discriminate).
  assert (Hwait : wait (enf s) = 0%nat) by (unfold pending_signals in Hpend; lia).
  assert (Hneg : n (enf s) + 1 <= 0)
    by (unfold counter, parked, granted, denied in *; lia).
  assert (Hi' : <[g:={| a_code := Ret emptyTicket; a_released := true |}]> (acquires s) !! i =
                Some {| a_code := parked_acquire ctx; a_released := false |})
    by (rewrite list_lookup_insert_ne; done).
  assert (Hj : (releases s ++ [wait_send]) !! length (releases s) = Some wait_send)
    by (by apply list_lookup_middle).
  unfold run, step. rewrite Hg. simpl. int64_exact.
  apply Z.leb_le in Hneg as Hleb. rewrite Hleb. simpl.
  rewrite Hj. simpl. rewrite Hwait. simpl.
  rewrite Hi'. simpl.
  eexists. split; [reflexivity |]. simpl.
  split; [apply list_lookup_insert_eq; rewrite length_insert; by eapply lookup_lt_Some |].
  split; [apply Nat2Z.inj; counts |].
  split; [apply Nat2Z.inj; counts |].
  split; [reflexivity |].
  apply Nat2Z.inj. counts. rewrite count_snoc. counts.
Qed.

Lemma release_hands_over_witness :
  Uint32.in_range 1 /\
  run (take 2 scenario_handoff) (init 1) = Some (final 1 (take 2 scenario_handoff)) /\
  acquires (final 1 (take 2 scenario_handoff)) !! 1%nat =
    Some {| a_code := parked_acquire 1%nat; a_released := false |} /\
  pending_signals (final 1 (take 2 scenario_handoff)) = 0%nat /\
  exists s',
    run [EvRelease 0; EvSend (length (releases (final 1 (take 2 scenario_handoff))));
         EvResume 1 CaseWait] (final 1 (take 2 scenario_handoff)) =
      Some s' /\
    acquires s' !! 1%nat = Some {| a_code := Ret Granted; a_released := false |} /\
    granted s' = granted (final 1 (take 2 scenario_handoff)) /\
    (parked s' + 1)%nat = parked (final 1 (take 2 scenario_handoff)) /\
    counter s' = counter (final 1 (take 2 scenario_handoff)) + 1 /\
    pending_signals s' = 0%nat.
Proof.
  assert (Hc : Uint32.in_range 1) by (unfold Uint32.in_range; lia).
  split; [exact Hc |]. do 3 (split; [reflexivity |]).
  apply (release_hands_over 1 (take 2 scenario_handoff)
           (final 1 (take 2 scenario_handoff)) 1%nat 0%nat 1%nat).
  - exact Hc.
  - unfold Int64.max_int64. simpl. lia.
  - reflexivity.
  - reflexivity.
  - reflexivity.
  - reflexivity.
  - reflexivity.
Defined.

(** *** The counter as the number of free slots *)

Lemma nonblocking_acquires_min (k : nat) : forall q,
  Int64.in_range (n q) ->
  0 <= n q ->
  nonblocking_acquires k q = Nat.min k (Z.to_nat (n q)).
Proof.
  induction k as [| k IH]; intros q Hr Hpos; [reflexivity |].
  simpl. unfold acquire_now. rewrite step_Acquire. simpl.
  rewrite int64_add_exact
    by (unfold Int64.in_range, Int64.min_int64, Int64.max_int64 in *; lia).
  destruct (n q + -1 <? 0) eqn:Hlt;
    [apply Z.ltb_lt in Hlt | apply Z.ltb_ge in Hlt]; simpl.
  - replace (Z.to_nat (n q)) with 0%nat by lia. reflexivity.
  - rewrite IH; simpl.
    + replace (Z.to_nat (n q)) with (S (Z.to_nat (n q + -1))) by lia. reflexivity.
    + unfold Int64.in_range, Int64.min_int64, Int64.max_int64 in *. lia.
    + lia.
Qed.





(** X10: which way a call of [Release] goes, by the counter it finds.
    It sends a wake signal exactly when the counter is negative, or is
    the largest int64, where the increment wraps around to the least;
    it returns without a send exactly when the counter is at least zero
    and below the largest int64. *)
Theorem release_path (fired : gset Context) (pick : select_case)
    (q : StaticQuotaEnforcer) (t : Ticket) :
  Int64.in_range (n q) ->
  exists q' p,
    step_prog fired pick q (Release t) = Some (q', p) /\
    (p = wait_send <-> n q < 0 \/ n q = Int64.max_int64) /\
    (p = Ret tt <-> 0 <= n q < Int64.max_int64).
Proof.
  intros Hr. rewrite step_Release. simpl. eexists. eexists.
  split; [reflexivity |].
  destruct (Z.eq_dec (n q) Int64.max_int64) as [Heq | Hne].
  - rewrite Heq, int64_add_max_1. simpl.
    split; split; intros H;
      first [discriminate | reflexivity | lia | (right; reflexivity)].
  - rewrite int64_add_exact
      by (unfold Int64.in_range, Int64.min_int64, Int64.max_int64 in *; lia).
    unfold Int64.in_range in Hr.
    destruct (n q + 1 <=? 0) eqn:Hle;
      [apply Z.leb_le in Hle | apply Z.leb_gt in Hle];
      split; split; intros H; try discriminate; try reflexivity; lia.
Qed.

Lemma release_path_witness :
  Int64.in_range (n {| n := Int64.max_int64; wait := 0 |}) /\
  exists q' p,
    step_prog ∅ CaseWait {| n := Int64.max_int64; wait := 0 |} (Release Granted) =
      Some (q', p) /\
    p = wait_send /\ n q' = Int64.min_int64.
Proof.
  assert (Hr : Int64.in_range (n {| n := Int64.max_int64; wait := 0 |}))
    by (vm_compute; split; discriminate).
  split; [exact Hr |].
  destruct (release_path ∅ CaseWait {| n := Int64.max_int64; wait := 0 |} Granted Hr)
    as (q' & p & Hstep & Hsend & _).
  exists q', p. split; [exact Hstep |]. split.
  - apply Hsend. right. reflexivity.
  - rewrite step_Release in Hstep. injection Hstep as <- _. reflexivity.
Defined.

(** *** Releasing what was not granted *)

(** X11: what releasing a denied ticket does.  After a call of
    [Acquire] that waited and was cancelled, a call of [Release] with
    the ticket it returned is accepted and brings the counter back to
    its value before the call of [Acquire]; that value is at most zero,
    so the release also sends a wake signal that no release of a granted
    ticket stands behind: one more signal is pending than before, and
    the granted tickets are the same. *)
Theorem release_of_denied_ticket (s : system) (ctx : Context) :
  Int64.in_range (counter s) ->
  Int64.add (counter s) (-1) < 0 ->
  exists s',
    run [EvAcquire ctx; EvCancel ctx; EvResume (length (acquires s)) CaseCtxDone;
         EvRelease (length (acquires s))] s = Some s' /\
    acquires s' !! length (acquires s) =
      Some {| a_code := Ret Denied; a_released := true |} /\
    counter s' = counter s /\
    pending_signals s' = S (pending_signals s) /\
    granted s' = granted s.
Proof.
  intros Hr Hneg.
  pose proof (int64_add_m1_negative _ Hr Hneg) as Hexact.
  pose proof (int64_add_m1_1 _ Hr) as Hback.
  unfold counter in *.
  assert (Hpark : (acquires s ++
             [{| a_code := parked_acquire ctx; a_released := false |}])
             !! length (acquires s) =
           Some {| a_code := parked_acquire ctx; a_released := false |})
    by (by apply list_lookup_middle).
  assert (Hden : <[length (acquires s) :=
                    {| a_code := Ret (boolTicket false); a_released := false |}]>
                 (acquires s ++ [{| a_code := parked_acquire ctx; a_released := false |}])
                 !! length (acquires s) =
                 Some {| a_code := Ret (boolTicket false); a_released := false |})
    by (apply list_lookup_insert_eq; rewrite length_app; simpl; lia).
  assert (Hle : (n (enf s) <=? 0) = true) by (apply Z.leb_le; lia).
  unfold run, step. rewrite step_Acquire. simpl.
  apply Z.ltb_lt in Hneg as Hltb. rewrite Hltb. simpl.
  rewrite Hpark. simpl.
  rewrite bool_decide_eq_true_2 by set_solver. simpl.
  rewrite Hden. simpl. rewrite Hback, Hle.
  eexists. split; [reflexivity |]. simpl.
  split.
  { apply list_lookup_insert_eq. rewrite length_insert, length_app. simpl. lia. }
  split; [reflexivity |].
  split.
  - apply Nat2Z.inj. counts; try (rewrite count_snoc; counts).
  - apply Nat2Z.inj. counts; try (rewrite count_snoc; counts).
Qed.

Lemma release_of_denied_ticket_witness :
  Int64.in_range (counter (final 1 (take 1 scenario_handoff))) /\
  Int64.add (counter (final 1 (take 1 scenario_handoff))) (-1) < 0 /\
  exists s',
    run [EvAcquire 5%nat; EvCancel 5%nat;
         EvResume (length (acquires (final 1 (take 1 scenario_handoff)))) CaseCtxDone;
         EvRelease (length (acquires (final 1 (take 1 scenario_handoff))))]
        (final 1 (take 1 scenario_handoff)) = Some s' /\
    counter s' = 0 /\
    pending_signals s' = 1%nat /\
    granted s' = 1%nat.
Proof.
  assert (Hr : Int64.in_range (counter (final 1 (take 1 scenario_handoff))))
    by (vm_compute; split; discriminate).
  assert (Hneg : Int64.add (counter (final 1 (take 1 scenario_handoff))) (-1) < 0)
    by reflexivity.
  split; [exact Hr |]. split; [exact Hneg |].
  destruct (release_of_denied_ticket (final 1 (take 1 scenario_handoff)) 5%nat Hr Hneg)
    as (s' & Hrun & _ & Hn & Hp & Hg).
  exists s'. split; [exact Hrun |].
  split; [rewrite Hn; reflexivity |].
  split; [rewrite Hp; reflexivity | rewrite Hg; reflexivity].
Defined.

(** X12: a call of [Release] that no call of [Acquire] stands behind
    adds a slot.  On a new enforcer of capacity [c] it returns without a
    send and leaves the counter at [c + 1]: of [c + 1] calls of
    [Acquire] in a row all return without suspending then, where only
    [c] of them do on the new enforcer. *)
Theorem release_without_acquire_adds_slot (capacity : Z) (t : Ticket)
    (fired : gset Context) (pick : select_case) :
  Uint32.in_range capacity ->
  exists q',
    step_prog fired pick (NewStaticQuotaEnforcer capacity) (Release t) = Some (q', Ret tt) /\
    n q' = capacity + 1 /\
    nonblocking_acquires (S (Z.to_nat capacity)) q' = S (Z.to_nat capacity) /\
    nonblocking_acquires (S (Z.to_nat capacity)) (NewStaticQuotaEnforcer capacity) =
      Z.to_nat capacity.
Proof.
  intros Hc. assert (Hcap : 0 <= capacity < 2 ^ 32) by exact Hc.
  pose proof (uint32_to_int64_exact capacity Hc) as Hn.
  assert (Hnew : nonblocking_acquires (S (Z.to_nat capacity))
                   (NewStaticQuotaEnforcer capacity) = Z.to_nat capacity).
  { rewrite nonblocking_acquires_min; cbn [n wait NewStaticQuotaEnforcer]; rewrite ?Hn.
    - lia.
    - unfold Int64.in_range, Int64.min_int64, Int64.max_int64. lia.
    - lia. }
  assert (Hmore : nonblocking_acquires (S (Z.to_nat capacity))
                    {| n := capacity + 1; wait := 0 |} = S (Z.to_nat capacity)).
  { rewrite nonblocking_acquires_min; cbn [n wait].
    - lia.
    - unfold Int64.in_range, Int64.min_int64, Int64.max_int64. lia.
    - lia. }
  exists {| n := capacity + 1; wait := 0 |}.
  split; [| split; [reflexivity | split; [exact Hmore | exact Hnew]]].
  rewrite step_Release. cbn [n wait NewStaticQuotaEnforcer]. rewrite Hn.
  rewrite int64_add_exact
    by (unfold Int64.in_range, Int64.min_int64, Int64.max_int64; lia).
  destruct (capacity + 1 <=? 0) eqn:Hle; [apply Z.leb_le in Hle; lia |].
  reflexivity.
Qed.

Lemma release_without_acquire_adds_slot_witness :
  Uint32.in_range 2 /\
  exists q',
    step_prog ∅ CaseWait (NewStaticQuotaEnforcer 2) (Release nilTicket) = Some (q', Ret tt) /\
    n q' = 3 /\
    nonblocking_acquires 3 q' = 3%nat /\
    nonblocking_acquires 3 (NewStaticQuotaEnforcer 2) = 2%nat.
Proof.
  assert (Hc : Uint32.in_range 2) by (unfold Uint32.in_range; lia).
  split; [exact Hc |].
  apply (release_without_acquire_adds_slot 2 nilTicket ∅ CaseWait Hc).
Defined.
